(** * J-Music-bot: the per-guild player of [bot.py]

    A shallow embedding of [MusicPlayer] (its queue, its playback loop
    task and its start/stop/enqueue operations) and of the player
    registry [get_player], together with the properties of the
    specification that concern them.

    The program is an [asyncio] program: one thread, cooperative tasks.
    A coroutine runs without interruption until it suspends in an
    [await] that really waits.  The model therefore has one atomic
    transition per stretch of code between two suspension points:

    - [enqueue], [start] and [stop] never suspend ([Queue.put] on an
      unbounded queue returns at once, [start] and [stop] contain no
      waiting [await]), so each is one transition;
    - [_player_loop] suspends in [asyncio.wait_for(self.queue.get(), 300)],
      in [vc.disconnect] and in [asyncio.sleep(1)]; a [Step] runs a loop
      task from the suspension point it is parked at to the next one.
      The model parks the task at [wait_for] even when the queue already
      holds a track; an interpreter that returns the track without
      suspending performs two of our steps in a row, so every schedule
      of the program is a schedule of the model;
    - the voice connection, the clock and the audio thread are the
      environment: they act through [Env] events.

    The scheduler is the list of actions given to [run].

    What is taken from the libraries the program runs on:

    - [asyncio.wait_for(queue.get(), 300)] resumes the loop with the
      head of the queue, or with [TimeoutError] once 300 time units
      have passed without a track, or with the [CancelledError] of a
      pending [Task.cancel()]; [Task.done()] is false until the task
      has really left its coroutine;
    - [vc.play] raises [ClientException] on a client that is not
      connected or is already playing, and starts the audio otherwise;
      [vc.is_playing()] is false once the audio has ended, was stopped,
      or the client is gone; audio starts through [vc.play] only (the
      pause and resume commands of the layer above are not modelled),
      and building the [FFmpegPCMAudio] source does not raise. *)

From Stdlib Require Import ZArith List Bool Lia.
From Stdlib Require QArith.
From stdpp Require Import base option list strings gmap pretty.

(** ** Data model *)

(** The [Track] dataclass. *)
Record Track := mkTrack {
  title : string;
  url : string;
  stream_url : string;
  requester_id : Z }.

(** [timeout=300] of the [wait_for] in [_player_loop]. *)
Definition IDLE_TIMEOUT : nat := 300.
#[global] Opaque IDLE_TIMEOUT.

(** The part of [asyncio.Queue] that the player uses: an unbounded FIFO
    with the counter of unfinished tasks behind [task_done]. *)
Module Queue.

Record t := mk { items : list Track; unfinished_tasks : nat }.

Definition new : t := {| items := []; unfinished_tasks := 0 |}.

Definition empty (q : t) : bool :=
  match items q with [] => true | _ :: _ => false end.

Definition qsize (q : t) : nat := length (items q).

Definition put_nowait (x : Track) (q : t) : t :=
  {| items := items q ++ [x]; unfinished_tasks := S (unfinished_tasks q) |}.

(** [None] is [QueueEmpty]. *)
Definition get_nowait (q : t) : option (Track * t) :=
  match items q with
  | [] => None
  | x :: rest => Some (x, {| items := rest; unfinished_tasks := unfinished_tasks q |})
  end.

(** [None] is [ValueError]: called more often than there were items. *)
Definition task_done (q : t) : option t :=
  match unfinished_tasks q with
  | 0 => None
  | S n => Some {| items := items q; unfinished_tasks := n |}
  end.

End Queue.

(** The voice connection of a guild, as far as the player observes it:
    [is_connected()], [is_playing()], and the identity of the client
    object (the loop keeps a local reference [vc] across its poll). *)
Record VoiceClient := mkVoice {
  vc_id : nat;
  connected : bool;
  playing : bool }.

Record Guild := mkGuild {
  guild_id : Z;
  voice_client : option VoiceClient }.

(** How a loop task ended: the [break] of the idle timeout, the
    [while not self._stopped.is_set()] test failing, a [CancelledError],
    or any other exception leaving the coroutine. *)
Inductive Outcome := Returned_idle | Returned_stopped | Cancelled | Raised.

(** Where a [_player_loop] task is parked, with the locals it holds. *)
Inductive PC :=
| Created
| WaitingGet (idle : nat)
| Disconnecting (vc : nat)
| Polling (track : Track) (vc : nat)
| Done (o : Outcome).

Record Task := mkTask { pc : PC; must_cancel : bool }.

Definition is_done (p : PC) : bool :=
  match p with Done _ => true | _ => false end.

(** Calls the player makes on the voice collaborator; [CallPlay] stands
    for [vc.play] on the audio source built from the track's
    [stream_url]. *)
Inductive Call :=
| CallPlay (vc : nat) (track : Track)
| CallStop (vc : nat)
| CallDisconnect (vc : nat).

(** A [MusicPlayer] object ([guild], [queue], [now_playing],
    [_player_task], [_stopped]; its [bot] is only used to schedule the
    [after] callback) with the run-time state around it: every
    task ever created for it (a task is named by its index), the number
    of [after] callbacks of [vc.play] still to be delivered, the next
    fresh voice-client identity, and the log of collaborator calls. *)
Record MusicPlayer := mkPlayer {
  guild : Guild;
  queue : Queue.t;
  now_playing : option Track;
  _player_task : option nat;
  _stopped : bool;
  tasks : list Task;
  after_due : nat;
  next_vc : nat;
  calls : list Call }.

(** [MusicPlayer.__init__]. *)
Definition MusicPlayer_init (g : Guild) : MusicPlayer :=
  {| guild := g; queue := Queue.new; now_playing := None;
     _player_task := None; _stopped := false;
     tasks := []; after_due := 0;
     next_vc := match voice_client g with Some v => S (vc_id v) | None => 0 end;
     calls := [] |}.

(** Field updates. *)
Definition with_voice (v : option VoiceClient) (s : MusicPlayer) : MusicPlayer :=
  {| guild := {| guild_id := guild_id (guild s); voice_client := v |};
     queue := queue s; now_playing := now_playing s;
     _player_task := _player_task s; _stopped := _stopped s;
     tasks := tasks s; after_due := after_due s; next_vc := next_vc s;
     calls := calls s |}.

Definition with_queue (q : Queue.t) (s : MusicPlayer) : MusicPlayer :=
  {| guild := guild s; queue := q; now_playing := now_playing s;
     _player_task := _player_task s; _stopped := _stopped s;
     tasks := tasks s; after_due := after_due s; next_vc := next_vc s;
     calls := calls s |}.

Definition with_now_playing (n : option Track) (s : MusicPlayer) : MusicPlayer :=
  {| guild := guild s; queue := queue s; now_playing := n;
     _player_task := _player_task s; _stopped := _stopped s;
     tasks := tasks s; after_due := after_due s; next_vc := next_vc s;
     calls := calls s |}.

Definition with_player_task (k : option nat) (s : MusicPlayer) : MusicPlayer :=
  {| guild := guild s; queue := queue s; now_playing := now_playing s;
     _player_task := k; _stopped := _stopped s;
     tasks := tasks s; after_due := after_due s; next_vc := next_vc s;
     calls := calls s |}.

Definition with_stopped (b : bool) (s : MusicPlayer) : MusicPlayer :=
  {| guild := guild s; queue := queue s; now_playing := now_playing s;
     _player_task := _player_task s; _stopped := b;
     tasks := tasks s; after_due := after_due s; next_vc := next_vc s;
     calls := calls s |}.

Definition with_tasks (l : list Task) (s : MusicPlayer) : MusicPlayer :=
  {| guild := guild s; queue := queue s; now_playing := now_playing s;
     _player_task := _player_task s; _stopped := _stopped s;
     tasks := l; after_due := after_due s; next_vc := next_vc s;
     calls := calls s |}.

Definition with_after_due (n : nat) (s : MusicPlayer) : MusicPlayer :=
  {| guild := guild s; queue := queue s; now_playing := now_playing s;
     _player_task := _player_task s; _stopped := _stopped s;
     tasks := tasks s; after_due := n; next_vc := next_vc s;
     calls := calls s |}.

Definition with_next_vc (n : nat) (s : MusicPlayer) : MusicPlayer :=
  {| guild := guild s; queue := queue s; now_playing := now_playing s;
     _player_task := _player_task s; _stopped := _stopped s;
     tasks := tasks s; after_due := after_due s; next_vc := n;
     calls := calls s |}.

Definition log (c : Call) (s : MusicPlayer) : MusicPlayer :=
  {| guild := guild s; queue := queue s; now_playing := now_playing s;
     _player_task := _player_task s; _stopped := _stopped s;
     tasks := tasks s; after_due := after_due s; next_vc := next_vc s;
     calls := calls s ++ [c] |}.

(** Park task [k] at [p]. *)
Definition set_pc (k : nat) (p : PC) (s : MusicPlayer) : MusicPlayer :=
  with_tasks (alter (fun tk => {| pc := p; must_cancel := must_cancel tk |}) k (tasks s)) s.

(** ** Operations of [MusicPlayer] *)

(** [self._player_task is None or self._player_task.done()]. *)
Definition no_active_task (s : MusicPlayer) : bool :=
  match _player_task s with
  | None => true
  | Some k =>
      match tasks s !! k with
      | Some tk => is_done (pc tk)
      | None => true
      end
  end.

(** [MusicPlayer.start] (lines 87-90): [asyncio.create_task] appends a
    task that has not run yet. *)
Definition start (s : MusicPlayer) : MusicPlayer :=
  if no_active_task s then
    with_player_task (Some (length (tasks s)))
      (with_tasks (tasks s ++ [{| pc := Created; must_cancel := false |}])
         (with_stopped false s))
  else s.

(** [MusicPlayer.enqueue] (lines 105-107). *)
Definition enqueue (track : Track) (s : MusicPlayer) : MusicPlayer :=
  start (with_queue (Queue.put_nowait track (queue s)) s).

(** The [while not self.queue.empty()] loop of [stop] (lines 96-101);
    the flag is [false] when [task_done] raised [ValueError], which
    leaves [stop] at once.  Each round removes one item, so
    [Queue.qsize q] rounds are enough (lemma [drain_fuel]). *)
Fixpoint drain (fuel : nat) (q : Queue.t) : Queue.t * bool :=
  match fuel with
  | 0 => (q, true)
  | S fuel' =>
      if Queue.empty q then (q, true)
      else match Queue.get_nowait q with
           | None => (q, true)
           | Some (_, q1) =>
               match Queue.task_done q1 with
               | None => (q1, false)
               | Some q2 => drain fuel' q2
               end
           end
  end.

(** [Task.cancel()]: a request, honoured when the task next runs; no
    effect on a task that is done. *)
Definition cancel (k : nat) (s : MusicPlayer) : MusicPlayer :=
  with_tasks
    (alter (fun tk => if is_done (pc tk) then tk
                      else {| pc := pc tk; must_cancel := true |}) k (tasks s)) s.

(** Lines 94-95: [if vc and vc.is_playing(): vc.stop()]. *)
Definition halt_voice (s : MusicPlayer) : MusicPlayer :=
  match voice_client (guild s) with
  | Some v =>
      if playing v then
        log (CallStop (vc_id v))
          (with_voice (Some {| vc_id := vc_id v; connected := connected v; playing := false |}) s)
      else s
  | None => s
  end.

(** [MusicPlayer.stop] (lines 92-103); the flag tells whether it
    returned normally.  A task object is always truthy, so
    [if self._player_task] is the test for [None]. *)
Definition stop_body (s : MusicPlayer) : MusicPlayer * bool :=
  let s1 := halt_voice (with_stopped true s) in
  let '(q, ok) := drain (Queue.qsize (queue s1)) (queue s1) in
  let s2 := with_queue q s1 in
  if ok then
    match _player_task s2 with
    | Some k => (cancel k s2, true)
    | None => (s2, true)
    end
  else (s2, false).

Definition stop (s : MusicPlayer) : MusicPlayer := fst (stop_body s).

(** ** The playback loop *)

(** The test [while not self._stopped.is_set()] followed by the
    suspension in [wait_for(self.queue.get(), timeout=300)]. *)
Definition loop_head (k : nat) (s : MusicPlayer) : MusicPlayer :=
  if _stopped s then set_pc k (Done Returned_stopped) s
  else set_pc k (WaitingGet 0) s.

(** [vc.is_playing()] on the client the loop holds: a client that was
    replaced or dropped no longer plays. *)
Definition is_playing (vc : nat) (s : MusicPlayer) : bool :=
  match voice_client (guild s) with
  | Some v => Nat.eqb (vc_id v) vc && playing v
  | None => false
  end.

(** [while vc.is_playing() and not self._stopped.is_set(): sleep(1)],
    then [self.now_playing = None] and back to the head of the loop. *)
Definition poll (k : nat) (track : Track) (vc : nat) (s : MusicPlayer) : MusicPlayer :=
  if is_playing vc s && negb (_stopped s) then set_pc k (Polling track vc) s
  else loop_head k (with_now_playing None s).

(** [vc.play(source, after=...)]: [None] is the [ClientException] of a
    client that is not connected or is already playing. *)
Definition vc_play (v : VoiceClient) (track : Track) (s : MusicPlayer) : option MusicPlayer :=
  if negb (connected v) then None
  else if playing v then None
  else
    let v' := {| vc_id := vc_id v; connected := true; playing := true |} in
    Some (log (CallPlay (vc_id v) track)
            (with_after_due (S (after_due s)) (with_voice (Some v') s))).

(** Lines 121-123: [task_done], [now_playing = None], [continue]. *)
Definition discard (k : nat) (s : MusicPlayer) : MusicPlayer :=
  match Queue.task_done (queue s) with
  | None => set_pc k (Done Raised) s
  | Some q => loop_head k (with_now_playing None (with_queue q s))
  end.

(** Lines 118-132, once [wait_for] has delivered [track]; a client
    object is always truthy, so [not vc] is the test for [None]. *)
Definition on_track (k : nat) (track : Track) (s : MusicPlayer) : MusicPlayer :=
  let s1 := with_now_playing (Some track) s in
  match voice_client (guild s1) with
  | None => discard k s1
  | Some v =>
      if negb (connected v) then discard k s1
      else match vc_play v track s1 with
           | None => set_pc k (Done Raised) s1
           | Some s2 => poll k track (vc_id v) s2
           end
  end.

(** Lines 113-117, the [TimeoutError] handler, up to the suspension in
    [vc.disconnect] when there is one. *)
Definition on_timeout (k : nat) (s : MusicPlayer) : MusicPlayer :=
  match voice_client (guild s) with
  | Some v =>
      if negb (playing v) then set_pc k (Disconnecting (vc_id v)) (log (CallDisconnect (vc_id v)) s)
      else set_pc k (Done Returned_idle) s
  | None => set_pc k (Done Returned_idle) s
  end.

(** [vc.disconnect] returns: the client is gone from the guild; then
    [break]. *)
Definition after_disconnect (k : nat) (vc : nat) (s : MusicPlayer) : MusicPlayer :=
  let s1 :=
    match voice_client (guild s) with
    | Some v => if Nat.eqb (vc_id v) vc then with_voice None s else s
    | None => s
    end in
  set_pc k (Done Returned_idle) s1.

(** One scheduling of task [k]: from where it is parked to its next
    suspension.  A pending cancellation is delivered first, as a
    [CancelledError] that nothing in [_player_loop] catches. *)
Definition step (k : nat) (s : MusicPlayer) : MusicPlayer :=
  match tasks s !! k with
  | None => s
  | Some tk =>
      if is_done (pc tk) then s
      else if must_cancel tk then set_pc k (Done Cancelled) s
      else match pc tk with
           | Created => loop_head k s
           | WaitingGet idle =>
               match Queue.get_nowait (queue s) with
               | Some (track, q) => on_track k track (with_queue q s)
               | None => if Nat.leb IDLE_TIMEOUT idle then on_timeout k s else s
               end
           | Disconnecting vc => after_disconnect k vc s
           | Polling track vc => poll k track vc s
           | Done _ => s
           end
  end.

(** ** The environment *)

(** What the voice connection, the clock and the audio thread do on
    their own. *)
Inductive EnvEvent :=
| Tick                          (* one time unit passes *)
| VoiceJoin                     (* the command layer connects (when there is no client) *)
| VoiceLeave                    (* the client is removed from the guild *)
| VoiceDown                     (* the connection is lost, the client stays *)
| VoiceUp                       (* the connection is back *)
| PlaybackEnded (failed : bool) (* the audio ends: finished, skipped, or broke *)
| AfterCallback.                (* a scheduled [after] callback runs [task_done] *)

(** One time unit passes for a task: only the wait for a track counts
    time. *)
Definition tick_task (tk : Task) : Task :=
  match pc tk with
  | WaitingGet i => {| pc := WaitingGet (S i); must_cancel := must_cancel tk |}
  | _ => tk
  end.

(** New [is_connected()] and [is_playing()] answers of the guild's
    voice client, when there is one. *)
Definition set_flags (c p : VoiceClient -> bool) (s : MusicPlayer) : MusicPlayer :=
  match voice_client (guild s) with
  | Some v => with_voice (Some {| vc_id := vc_id v; connected := c v; playing := p v |}) s
  | None => s
  end.

(** The effect of an environment event.  The [after] callback runs
    [task_done] in the event loop, where a [ValueError] would only be
    logged. *)
Definition env (e : EnvEvent) (s : MusicPlayer) : MusicPlayer :=
  match e with
  | Tick => with_tasks (tick_task <$> tasks s) s
  | VoiceJoin =>
      match voice_client (guild s) with
      | None =>
          with_next_vc (S (next_vc s))
            (with_voice (Some {| vc_id := next_vc s; connected := true; playing := false |}) s)
      | Some _ => s
      end
  | VoiceLeave => with_voice None s
  | VoiceDown => set_flags (fun _ => false) playing s
  | VoiceUp => set_flags (fun _ => true) playing s
  | PlaybackEnded _ => set_flags connected (fun _ => false) s
  | AfterCallback =>
      match after_due s with
      | 0 => s
      | S n =>
          match Queue.task_done (queue s) with
          | Some q => with_after_due n (with_queue q s)
          | None => with_after_due n s
          end
      end
  end.

(** ** Schedules *)

(** One atomic transition: a call of the command layer on the player,
    one scheduling of a loop task, or an environment event. *)
Inductive Action :=
| Enqueue (track : Track)
| Start
| Stop
| Step (k : nat)
| Env (e : EnvEvent).

Definition act (a : Action) (s : MusicPlayer) : MusicPlayer :=
  match a with
  | Enqueue track => enqueue track s
  | Start => start s
  | Stop => stop s
  | Step k => step k s
  | Env e => env e s
  end.

Definition run (acts : list Action) (s : MusicPlayer) : MusicPlayer :=
  fold_left (fun s a => act a s) acts s.

(** ** The registry *)

(** The module-level dict [players] (guild id to player object) and the
    store of player objects it refers to; a player is named by its
    index in the store, which is its identity. *)
Record Bot := mkBot {
  players : gmap Z nat;
  heap : list MusicPlayer }.

Definition Bot_init : Bot := {| players := ∅; heap := [] |}.

(** [get_player] (lines 139-144): a [MusicPlayer] object is always
    truthy, so [if not player] is the test for a missing key. *)
Definition get_player (g : Guild) (b : Bot) : nat * Bot :=
  match players b !! guild_id g with
  | Some r => (r, b)
  | None =>
      let r := length (heap b) in
      (r, {| players := <[guild_id g := r]> (players b);
             heap := heap b ++ [MusicPlayer_init g] |})
  end.

(** What can happen in the bot: a registry lookup, or an action on the
    player stored at [r]. *)
Inductive Command :=
| GetPlayer (g : Guild)
| OnPlayer (r : nat) (a : Action).

Definition exec (c : Command) (b : Bot) : Bot :=
  match c with
  | GetPlayer g => snd (get_player g b)
  | OnPlayer r a => {| players := players b; heap := alter (act a) r (heap b) |}
  end.

Definition exec_all (cs : list Command) (b : Bot) : Bot :=
  fold_left (fun b c => exec c b) cs b.

(** ** Observations used by the statements *)

(** The tracks handed to [vc.play], oldest first. *)
Fixpoint played (l : list Call) : list Track :=
  match l with
  | [] => []
  | CallPlay _ track :: r => track :: played r
  | _ :: r => played r
  end.

(** The clients asked to disconnect, oldest first. *)
Fixpoint disconnected (l : list Call) : list nat :=
  match l with
  | [] => []
  | CallDisconnect vc :: r => vc :: disconnected r
  | _ :: r => disconnected r
  end.



(** Schedules in which nobody calls the player: only loop steps and
    environment events. *)
Definition is_scheduling (a : Action) : bool :=
  match a with Step _ | Env _ => true | _ => false end.

(** A schedule of loop steps and environment events, as actions. *)
Definition scheduling (l : list (nat + EnvEvent)) : list Action :=
  map (fun x => match x with inl k => Step k | inr e => Env e end) l.

(** The number of loop tasks that have not finished. *)
Definition active_loops (s : MusicPlayer) : nat :=
  length (List.filter (fun tk => negb (is_done (pc tk))) (tasks s)).

(** A live voice connection: [vc and vc.is_connected()]. *)
Definition voice_live (s : MusicPlayer) : bool :=
  match voice_client (guild s) with
  | Some v => connected v
  | None => false
  end.

(** The voice collaborator reports active playback for the guild. *)
Definition voice_playing (s : MusicPlayer) : bool :=
  match voice_client (guild s) with
  | Some v => playing v
  | None => false
  end.



(** No audio plays in the guild when its player is created: only the
    player's loop ever starts playback. *)
Definition quiet (g : Guild) : bool :=
  match voice_client g with
  | Some v => negb (playing v)
  | None => true
  end.


(** Sample data for the scenarios. *)
Definition track_A : Track := mkTrack "A" "https://example.org/a" "stream-a" 1.
Definition track_B : Track := mkTrack "B" "https://example.org/b" "stream-b" 2.
Definition track_C : Track := mkTrack "C" "https://example.org/c" "stream-c" 3.
Definition track_D : Track := mkTrack "D" "https://example.org/d" "stream-d" 4.
Definition guild_1 : Guild := mkGuild 1 None.

(** ** Invariants *)

(** Every loop task that has not finished is the one [_player_task]
    refers to. *)
Definition single_loop (s : MusicPlayer) : Prop :=
  forall k tk, tasks s !! k = Some tk -> is_done (pc tk) = false -> _player_task s = Some k.

(** What holds of every state the player reaches from a quiet guild:
    one loop at most; a loop that runs uncancelled sees [_stopped]
    clear; audio plays only while the loop polls it on that client; the
    queue's counter of unfinished tasks covers the queued tracks and
    the [after] callbacks still due; and no loop task ended through an
    exception or through the [_stopped] test. *)
Record Inv (s : MusicPlayer) : Prop := mkInv {
  inv_single : single_loop s;
  inv_stopped : forall k tk,
    tasks s !! k = Some tk -> is_done (pc tk) = false -> must_cancel tk = false ->
    _stopped s = false;
  inv_playing : forall v,
    voice_client (guild s) = Some v -> playing v = true ->
    exists k track, tasks s !! k = Some {| pc := Polling track (vc_id v); must_cancel := false |};
  inv_unfinished :
    Queue.unfinished_tasks (queue s) = length (Queue.items (queue s)) + after_due s;
  inv_outcome : forall k tk,
    tasks s !! k = Some tk -> pc tk <> Done Raised /\ pc tk <> Done Returned_stopped }.

(** The state [stop] leaves when its drain loop does not raise. *)
Definition stopped_state (s : MusicPlayer) : MusicPlayer :=
  let s1 := halt_voice (with_stopped true s) in
  let s2 := with_queue
              {| Queue.items := [];
                 Queue.unfinished_tasks :=
                   Queue.unfinished_tasks (queue s) - length (Queue.items (queue s)) |} s1 in
  match _player_task s with
  | Some k => cancel k s2
  | None => s2
  end.

(** Every loop task has finished or is about to be cancelled. *)
Definition all_halted (s : MusicPlayer) : Prop :=
  forall k tk, tasks s !! k = Some tk -> is_done (pc tk) = true \/ must_cancel tk = true.

(** A guild whose voice client is connected and silent, and the player
    state in which track A plays while B and C wait in the queue. *)
Definition guild_connected : Guild := mkGuild 1 (Some (mkVoice 0 true false)).

Definition playing_A : MusicPlayer :=
  run [Enqueue track_A; Enqueue track_B; Enqueue track_C; Step 0; Step 0]
    (MusicPlayer_init guild_connected).



(** Schedules in which only the environment acts, and the time that
    passes in them. *)
Definition is_env (a : Action) : bool :=
  match a with Env _ => true | _ => false end.

Fixpoint elapsed (acts : list Action) : nat :=
  match acts with
  | [] => 0
  | Env Tick :: r => S (elapsed r)
  | _ :: r => elapsed r
  end.

(** The disconnect request the idle timeout sends: one, to the guild's
    voice client, when there is a client. *)
Definition idle_disconnect (s : MusicPlayer) : list Call :=
  match voice_client (guild s) with
  | Some v => [CallDisconnect (vc_id v)]
  | None => []
  end.

(** The two schedules of "[stop], then [enqueue] track D", from the
    state in which track A plays: in [enqueue_early] the enqueue runs
    before the cancelled loop task has been scheduled, in
    [enqueue_late] after it. *)
Definition playing_only_A : MusicPlayer :=
  run [Enqueue track_A; Step 0; Step 0] (MusicPlayer_init guild_connected).

Definition enqueue_early : MusicPlayer :=
  run [Stop; Enqueue track_D; Step 0] playing_only_A.

Definition enqueue_late : MusicPlayer :=
  run [Stop; Step 0; Enqueue track_D; Step 1; Step 1] playing_only_A.

(** ** Commands of the layer above, on the player of their guild *)

(** [skip_cmd] (lines 292-299); [ctx.voice_client] is the guild's voice
    client.  The second component is the reply. *)
Definition skip_cmd (s : MusicPlayer) : MusicPlayer * string :=
  match voice_client (guild s) with
  | Some v =>
      if playing v then
        (log (CallStop (vc_id v))
           (with_voice (Some {| vc_id := vc_id v; connected := connected v; playing := false |}) s),
         "Skipped.")
      else (s, "Nothing to skip.")
  | None => (s, "Nothing to skip.")
  end.









(** Every guild id of the registry leads to a stored player, and that
    player belongs to the guild. *)
Definition registry_ok (b : Bot) : Prop :=
  forall gid r, players b !! gid = Some r ->
    exists p, heap b !! r = Some p /\ guild_id (guild p) = gid.

(** [stop_cmd] (lines 322-326), on the bot: find or create the guild's
    player, then [stop] it. *)
Definition stop_cmd (g : Guild) (b : Bot) : Bot * string :=
  let '(r, b1) := get_player g b in
  ({| players := players b1; heap := alter stop r (heap b1) |},
   "Stopped and cleared the queue.").

(** Commands that create players only for guilds in which no audio
    plays yet. *)
Definition quiet_command (c : Command) : bool :=
  match c with
  | GetPlayer g => quiet g
  | OnPlayer _ _ => true
  end.

(** Every stored player is in a state the invariant describes. *)
Definition players_ok (b : Bot) : Prop :=
  forall r p, heap b !! r = Some p -> Inv p.

(** ** [Track.create]: from the extracted metadata to a track *)

(** The code of [Track.create] after [ydl.extract_info] (lines 62-75).
    The metadata is a dictionary; we keep the keys the code reads, each
    with the value [dict.get] returns for it ([None] for a missing key
    or a [None] value), text as strings and the bitrate [abr] as a
    rational number (every finite float is one). *)
Module Resolve.

















End Resolve.


(** * Basic facts *)

Ltac task_lookup :=
  repeat match goal with
    | H : context [alter _ _ _ !! _] |- _ =>
        rewrite list_lookup_alter in H; case_decide; simplify_eq/=
    | |- context [alter _ _ _ !! _] =>
        rewrite list_lookup_alter; case_decide; simplify_eq/=
    | H1 : ?l !! ?j = Some _, H2 : context [?l !! ?j] |- _ =>
        progress (rewrite H1 in H2); simplify_eq/=
    | H1 : ?l !! ?j = Some _ |- context [?l !! ?j] =>
        rewrite H1; simplify_eq/=
    | H : _ <$> (?l !! ?j) = Some _ |- _ =>
        let E := fresh "Hk" in destruct (l !! j) eqn:E; simplify_eq/=
    end.

Ltac open_tasks :=
  repeat match goal with t : Task |- _ => destruct t end; simplify_eq/=.

Ltac bool_clean :=
  repeat (match goal with
          | H : context [Nat.eqb ?a ?a] |- _ => rewrite Nat.eqb_refl in H
          | H : negb _ = true |- _ => apply negb_true_iff in H
          | H : negb _ = false |- _ => apply negb_false_iff in H
          | H : _ && _ = true |- _ => apply andb_true_iff in H; destruct H
          | H : _ && _ = false |- _ => apply andb_false_iff in H; destruct H
          | H : ?b = true, H' : ?l = _ |- _ =>
              lazymatch l with context [b] =>
                tryif constr_eq H H' then fail else rewrite H in H'
              end
          | H : ?b = false, H' : ?l = _ |- _ =>
              lazymatch l with context [b] =>
                tryif constr_eq H H' then fail else rewrite H in H'
              end
          end; simplify_eq/=).

Ltac open_step :=
  unfold step, on_track, on_timeout, after_disconnect, poll, discard,
    vc_play, loop_head, is_playing in *.

(** Two unfinished tasks are the same task; an unfinished uncancelled
    task contradicts [_stopped]; audio that plays has its polling task. *)
Ltac same_task H1 :=
  match goal with
  | Ha : tasks ?s !! ?a = Some ?ta, Hb : tasks ?s !! ?b = Some ?tb |- _ =>
      tryif constr_eq a b then fail
      else (assert (a = b) by
              (pose proof (H1 a ta Ha ltac:(simpl; done));
               pose proof (H1 b tb Hb ltac:(simpl; done));
               congruence);
            subst; simplify_eq/=)
  end.

Ltac not_stopped HI :=
  match goal with
  | Hs : _stopped ?s = true, Ha : tasks ?s !! ?a = Some ?ta |- _ =>
      pose proof (inv_stopped s HI a ta Ha ltac:(simpl; done) ltac:(simpl; done));
      congruence
  end.

Ltac its_poller HI :=
  match goal with
  | Hv : voice_client (guild ?s) = Some ?v, Hp : playing ?v = true |- _ =>
      let k0 := fresh "k0" in
      let t0 := fresh "t0" in
      let Hk0 := fresh "Hk0" in
      destruct (inv_playing s HI v Hv Hp) as (k0 & t0 & Hk0)
  end.

Ltac crunch :=
  open_step; unfold Queue.get_nowait, Queue.task_done in *;
  repeat case_match; open_tasks; try done; task_lookup; try done; bool_clean.

Lemma single_loop_step (k : nat) (s : MusicPlayer) :
  single_loop s -> single_loop (step k s).
Proof.
  intros H j tk' Hj Hlive. open_step.
  repeat case_match; open_tasks; eauto; task_lookup; eauto.
Qed.

Lemma Inv_step (k : nat) (s : MusicPlayer) : Inv s -> Inv (step k s).
Proof.
  intros HI. split.
  - apply single_loop_step, HI.
  - intros j tk' Hj Hlive Hc. crunch.
    all: try not_stopped HI.
    all: eapply (inv_stopped s HI); eauto.
  - intros v Hv Hp. crunch.
    all: try not_stopped HI.
    all: try (its_poller HI; try same_task (inv_single s HI); bool_clean).
    all: try not_stopped HI.
    all: try (eexists _, _; eassumption).
    all: match goal with
         | |- exists _ _, alter _ ?k _ !! _ = _ => exists k; eexists; task_lookup; eauto
         end.
  - crunch.
    all: try (its_poller HI; same_task (inv_single s HI); fail).
    all: pose proof (inv_unfinished s HI) as Hu.
    all: repeat match goal with
           | Hq : Queue.items _ = _ |- _ =>
               try rewrite Hq in Hu; try rewrite Hq; clear Hq
           end; simpl in *; lia.
  - intros j tk' Hj. crunch.
    all: try match goal with
           | Hj : tasks ?s' !! ?j = Some {| pc := ?p; must_cancel := _ |} |- ?p <> _ /\ _ =>
               exact (inv_outcome s' HI j _ Hj)
           end.
    all: try (split; congruence).
    all: try not_stopped HI.
    all: try (its_poller HI; same_task (inv_single s HI); fail).
    all: pose proof (inv_unfinished s HI) as Hu.
    all: repeat match goal with
           | Hq : Queue.items _ = _ |- _ => try rewrite Hq in Hu; clear Hq
           end; simpl in *; lia.
Qed.

Lemma no_active_all_done (s : MusicPlayer) :
  single_loop s -> no_active_task s = true ->
  forall k tk, tasks s !! k = Some tk -> is_done (pc tk) = true.
Proof.
  intros H Hn k tk Hk. destruct (is_done (pc tk)) eqn:Hd; [done|].
  unfold no_active_task in Hn. rewrite (H k tk Hk Hd), Hk in Hn. congruence.
Qed.

Lemma single_loop_start (s : MusicPlayer) : single_loop s -> single_loop (start s).
Proof.
  intros H. unfold start. destruct (no_active_task s) eqn:Hn; [|done].
  intros j tk Hj Hlive. simpl in *.
  apply lookup_app_Some in Hj as [Hj|[Hlen Hj]].
  - rewrite (no_active_all_done s H Hn j tk Hj) in Hlive. done.
  - apply list_lookup_singleton_Some in Hj as [Hj _]. f_equal. lia.
Qed.

Lemma Inv_start (s : MusicPlayer) : Inv s -> Inv (start s).
Proof.
  intros HI. pose proof (single_loop_start s (inv_single s HI)) as Hs.
  unfold start in *. destruct (no_active_task s) eqn:Hn; [|done].
  split; simpl; try done.
  - intros v Hv Hp. destruct (inv_playing s HI v Hv Hp) as (k & t & Hk).
    exists k, t. apply lookup_app_Some. by left.
  - apply (inv_unfinished s HI).
  - intros k tk Hk. apply lookup_app_Some in Hk as [Hk|[_ Hk]].
    + apply (inv_outcome s HI k tk Hk).
    + apply list_lookup_singleton_Some in Hk as [_ <-]. simpl. split; congruence.
Qed.

Lemma Inv_with_queue_put (track : Track) (s : MusicPlayer) :
  Inv s -> Inv (with_queue (Queue.put_nowait track (queue s)) s).
Proof.
  intros [H1 H2 H3 H4 H5]. split; try done.
  simpl. rewrite H4, length_app. simpl. lia.
Qed.

Lemma Inv_enqueue (track : Track) (s : MusicPlayer) : Inv s -> Inv (enqueue track s).
Proof. intros HI. apply Inv_start, Inv_with_queue_put, HI. Qed.

(** More fuel than there are queued tracks changes nothing: the drain
    loop has ended by then. *)
Lemma drain_fuel (fuel : nat) (q : Queue.t) :
  Queue.qsize q <= fuel -> drain fuel q = drain (Queue.qsize q) q.
Proof.
  revert q. induction fuel as [|fuel IH]; intros [l u]; unfold Queue.qsize; simpl.
  - intros Hl. by destruct l; [|simpl in Hl; lia].
  - intros Hl. destruct l as [|x l]; simpl; [done|].
    unfold Queue.task_done. simpl. destruct u as [|u]; [done|].
    apply (IH {| Queue.items := l; Queue.unfinished_tasks := u |}).
    unfold Queue.qsize. simpl in *. lia.
Qed.

(** [stop]'s drain loop empties the queue when the counter of
    unfinished tasks covers the queued tracks. *)
Lemma drain_all (fuel : nat) (q : Queue.t) :
  length (Queue.items q) <= fuel ->
  length (Queue.items q) <= Queue.unfinished_tasks q ->
  drain fuel q =
    ({| Queue.items := [];
        Queue.unfinished_tasks := Queue.unfinished_tasks q - length (Queue.items q) |}, true).
Proof.
  revert q. induction fuel as [|fuel IH]; intros [l u]; simpl; intros Hf Hu.
  - destruct l; simpl in *; [|lia]. do 3 f_equal. lia.
  - destruct l as [|x l]; simpl in *.
    + do 3 f_equal. lia.
    + unfold Queue.task_done. simpl. destruct u as [|u]; [lia|].
      rewrite IH; simpl; [done|lia|lia].
Qed.

Lemma halt_voice_queue (s : MusicPlayer) : queue (halt_voice s) = queue s.
Proof. unfold halt_voice. by repeat case_match. Qed.

Lemma halt_voice_player_task (s : MusicPlayer) : _player_task (halt_voice s) = _player_task s.
Proof. unfold halt_voice. by repeat case_match. Qed.

Lemma stop_body_ok (s : MusicPlayer) :
  length (Queue.items (queue s)) <= Queue.unfinished_tasks (queue s) ->
  stop_body s = (stopped_state s, true).
Proof.
  intros Hu. unfold stop_body, stopped_state.
  rewrite halt_voice_queue. simpl. unfold Queue.qsize.
  rewrite drain_all by (done || lia). simpl.
  rewrite halt_voice_player_task. simpl. by destruct (_player_task s).
Qed.

Lemma stop_ok (s : MusicPlayer) : Inv s -> stop s = stopped_state s.
Proof.
  intros HI. unfold stop. rewrite stop_body_ok; [done|].
  rewrite (inv_unfinished s HI). lia.
Qed.

Lemma Inv_stop (s : MusicPlayer) : Inv s -> Inv (stop s).
Proof.
  intros HI. rewrite (stop_ok s HI). unfold stopped_state, cancel, halt_voice.
  split.
  - intros j tk Hj Hlive.
    repeat case_match; open_tasks; task_lookup; bool_clean;
      try (by apply (inv_single s HI j _ Hj)).
    all: repeat case_match; simplify_eq/=; try done.
    all: match goal with
         | Hk : tasks ?s' !! ?k = Some _ |- _ => by apply (inv_single s' HI k _ Hk)
         end.
  - intros j tk Hj Hlive Hc. exfalso.
    repeat case_match; open_tasks; task_lookup; bool_clean.
    all: repeat case_match; simplify_eq/=.
    all: match goal with
         | Hk : tasks ?s' !! ?k = Some _ |- _ =>
             pose proof (inv_single s' HI k _ Hk ltac:(simpl; done)); congruence
         end.
  - intros v Hv Hp. repeat case_match; simplify_eq/=; congruence.
  - pose proof (inv_unfinished s HI). repeat case_match; simpl; lia.
  - intros j tk Hj.
    repeat case_match; open_tasks; task_lookup;
      try (by apply (inv_outcome s HI j _ Hj)).
    all: repeat case_match; simplify_eq/=.
    all: match goal with
         | Hk : tasks ?s' !! ?k = Some _ |- _ => by apply (inv_outcome s' HI k _ Hk)
         end.
Qed.

Lemma tick_task_done (tk : Task) : is_done (pc (tick_task tk)) = is_done (pc tk).
Proof. unfold tick_task. by destruct tk as [[] ?]. Qed.

Lemma tick_task_cancel (tk : Task) : must_cancel (tick_task tk) = must_cancel tk.
Proof. unfold tick_task. by destruct tk as [[] ?]. Qed.

Lemma single_loop_env (e : EnvEvent) (s : MusicPlayer) :
  single_loop s -> single_loop (env e s).
Proof.
  intros H j tk Hj Hlive. destruct e; simpl in *; unfold set_flags in *;
    repeat case_match; simplify_eq/=; eauto.
  rewrite list_lookup_fmap in Hj.
  destruct (tasks s !! j) as [tk0|] eqn:Hk; simplify_eq/=.
  rewrite tick_task_done in Hlive. eauto.
Qed.

Lemma Inv_env (e : EnvEvent) (s : MusicPlayer) : Inv s -> Inv (env e s).
Proof.
  intros HI. split.
  - apply single_loop_env, HI.
  - intros j tk Hj Hlive Hc. destruct e; simpl in *; unfold set_flags in *;
      repeat case_match; simplify_eq/=; try (by eapply (inv_stopped s HI)).
    rewrite list_lookup_fmap in Hj.
    destruct (tasks s !! j) as [tk0|] eqn:Hk; simplify_eq/=.
    rewrite tick_task_done in Hlive. rewrite tick_task_cancel in Hc.
    by eapply (inv_stopped s HI).
  - intros v Hv Hp. destruct e; simpl in *; unfold set_flags, Queue.task_done in *;
      repeat case_match; simplify_eq/=;
      try (by apply (inv_playing s HI));
      try (by apply (inv_playing s HI _ ltac:(eassumption) Hp)).
    destruct (inv_playing s HI v Hv Hp) as (k & t & Hk).
    exists k, t. rewrite list_lookup_fmap, Hk. done.
  - pose proof (inv_unfinished s HI).
    destruct e; simpl in *; unfold set_flags, Queue.task_done in *;
      repeat case_match; simplify_eq/=; lia.
  - intros j tk Hj. destruct e; simpl in *; unfold set_flags in *;
      repeat case_match; simplify_eq/=; try (by eapply (inv_outcome s HI)).
    rewrite list_lookup_fmap in Hj.
    destruct (tasks s !! j) as [tk0|] eqn:Hk; simplify_eq/=.
    pose proof (inv_outcome s HI j tk0 Hk) as [? ?].
    unfold tick_task. destruct tk0 as [[] ?]; simpl in *; done.
Qed.

Lemma Inv_init (g : Guild) : quiet g = true -> Inv (MusicPlayer_init g).
Proof.
  intros Hq. split; simpl; try done.
  intros v Hv Hp. unfold quiet in Hq. rewrite Hv, Hp in Hq. done.
Qed.

Lemma Inv_act (a : Action) (s : MusicPlayer) : Inv s -> Inv (act a s).
Proof.
  destruct a; simpl.
  - apply Inv_enqueue.
  - apply Inv_start.
  - apply Inv_stop.
  - apply Inv_step.
  - apply Inv_env.
Qed.

Lemma run_app (l1 l2 : list Action) (s : MusicPlayer) :
  run (l1 ++ l2) s = run l2 (run l1 s).
Proof. unfold run. apply fold_left_app. Qed.

Lemma Inv_run (acts : list Action) (s : MusicPlayer) : Inv s -> Inv (run acts s).
Proof.
  revert s. induction acts as [|a acts IH]; intros s HI; simpl; [done|].
  apply IH, Inv_act, HI.
Qed.

Lemma Inv_reachable (g : Guild) (acts : list Action) :
  quiet g = true -> Inv (run acts (MusicPlayer_init g)).
Proof. intros Hq. apply Inv_run, Inv_init, Hq. Qed.

Lemma single_loop_cancel (k : nat) (s : MusicPlayer) :
  single_loop s -> single_loop (cancel k s).
Proof.
  intros H j tk Hj Hlive. unfold cancel in *. simpl in *.
  task_lookup; repeat case_match; simplify_eq/=; eauto.
Qed.

Lemma single_loop_stop (s : MusicPlayer) : single_loop s -> single_loop (stop s).
Proof.
  intros H. unfold stop, stop_body.
  destruct (drain _ _) as [q ok]. set (s2 := with_queue q _).
  assert (single_loop s2) as H2.
  { intros j tk Hj Hlive. subst s2. unfold halt_voice in *.
    repeat case_match; simplify_eq/=; eauto. }
  destruct ok; [|done]. destruct (_player_task s2); [|done].
  simpl. by apply single_loop_cancel.
Qed.

Lemma single_loop_act (a : Action) (s : MusicPlayer) :
  single_loop s -> single_loop (act a s).
Proof.
  destruct a; simpl.
  - intros H. apply single_loop_start. exact H.
  - apply single_loop_start.
  - apply single_loop_stop.
  - apply single_loop_step.
  - apply single_loop_env.
Qed.

Lemma single_loop_run (acts : list Action) (s : MusicPlayer) :
  single_loop s -> single_loop (run acts s).
Proof.
  revert s. induction acts as [|a acts IH]; intros s H; simpl; [done|].
  apply IH, single_loop_act, H.
Qed.

Lemma single_loop_init (g : Guild) : single_loop (MusicPlayer_init g).
Proof. intros k tk Hk. simpl in Hk. done. Qed.

(** A list in which all the elements that satisfy [f] sit at one index
    has at most one of them. *)
Lemma filter_at_most_one {A : Type} (f : A -> bool) (l : list A) :
  (forall i j x y, l !! i = Some x -> l !! j = Some y ->
                   f x = true -> f y = true -> i = j) ->
  length (List.filter f l) <= 1.
Proof.
  induction l as [|a l IH]; intros H; simpl; [lia|].
  destruct (f a) eqn:Ha; simpl.
  - assert (List.filter f l = []) as ->; [|simpl; lia].
    destruct (List.filter f l) as [|b r] eqn:Hf; [done|].
    assert (In b (List.filter f l)) as Hb by (rewrite Hf; by left).
    apply filter_In in Hb as [Hb Hfb].
    apply list_elem_of_In, list_elem_of_lookup in Hb as [j Hj].
    specialize (H 0 (S j) a b eq_refl Hj Ha Hfb). lia.
  - apply IH. intros i j x y Hi Hj Hx Hy.
    specialize (H (S i) (S j) x y Hi Hj Hx Hy). lia.
Qed.

Lemma single_loop_active (s : MusicPlayer) : single_loop s -> active_loops s <= 1.
Proof.
  intros H. unfold active_loops. apply filter_at_most_one.
  intros i j x y Hi Hj Hx Hy.
  apply negb_true_iff in Hx, Hy.
  pose proof (H i x Hi Hx). pose proof (H j y Hj Hy). congruence.
Qed.

(** C4: at most one playback loop task is active per Player, for every
    schedule of enqueue, start and stop calls, loop steps and
    environment events; [start] with an active loop changes nothing, and
    so never adds a second loop. *)
Theorem C4_single_playback_loop (g : Guild) (acts : list Action) :
  let s := run acts (MusicPlayer_init g) in
  active_loops s <= 1 /\
  (no_active_task s = false -> start s = s) /\
  active_loops (start s) <= 1.
Proof.
  intros s. pose proof (single_loop_run acts _ (single_loop_init g)) as H.
  fold s in H. split; [|split].
  - by apply single_loop_active.
  - intros Hn. unfold start. by rewrite Hn.
  - by apply single_loop_active, single_loop_start.
Qed.

Lemma C4_single_playback_loop_witness :
  let s := run [Enqueue track_A; Step 0; Start; Enqueue track_B] (MusicPlayer_init guild_1) in
  active_loops s <= 1 /\ start s = s /\ active_loops (start s) <= 1.
Proof.
  intros s.
  destruct (C4_single_playback_loop guild_1
              [Enqueue track_A; Step 0; Start; Enqueue track_B]) as (H1 & H2 & H3).
  split; [exact H1|split; [apply H2; reflexivity|exact H3]].
Defined.


Lemma start_calls (s : MusicPlayer) : calls (start s) = calls s.
Proof. unfold start. by case_match. Qed.

Lemma start_queue (s : MusicPlayer) : queue (start s) = queue s.
Proof. unfold start. by case_match. Qed.

Lemma start_now_playing (s : MusicPlayer) : now_playing (start s) = now_playing s.
Proof. unfold start. by case_match. Qed.

Lemma env_calls (e : EnvEvent) (s : MusicPlayer) : calls (env e s) = calls s.
Proof. destruct e; simpl; unfold set_flags; by repeat case_match. Qed.

Lemma env_items (e : EnvEvent) (s : MusicPlayer) :
  Queue.items (queue (env e s)) = Queue.items (queue s).
Proof.
  destruct e; simpl; unfold set_flags, Queue.task_done in *;
    repeat case_match; by simplify_eq/=.
Qed.






















(** ** [stop] *)



(** [stop] empties the queue. *)
Lemma stop_queue_empty (s : MusicPlayer) : Inv s -> Queue.items (queue (stop s)) = [].
Proof.
  intros HI. rewrite (stop_ok s HI). unfold stopped_state.
  by destruct (_player_task s).
Qed.

(** A second [stop] changes nothing. *)
Lemma stop_idempotent (s : MusicPlayer) : Inv s -> stop (stop s) = stop s.
Proof.
  intros HI. rewrite (stop_ok (stop s)) by apply Inv_stop, HI.
  rewrite (stop_ok s HI).
  destruct s as [[gid vo] [items u] np pt st tks due nv cs].
  unfold stopped_state, halt_voice, cancel. simpl.
  destruct vo as [[id c []]|], pt as [k|]; simpl; rewrite ?Nat.sub_0_r; try done.
  all: unfold with_tasks; simpl; f_equal.
  all: rewrite list_alter_alter_eq; apply list_alter_ext; [|done].
  all: intros [p mc] _; simpl; destruct (is_done p) eqn:Hp; simpl; by rewrite Hp.
Qed.

(** Once every loop task is finished or cancelled, loop steps and
    environment events never assign [now_playing], make no call on the
    voice collaborator and take nothing from the queue. *)
Lemma halted_step (k : nat) (s : MusicPlayer) :
  all_halted s ->
  all_halted (step k s) /\ now_playing (step k s) = now_playing s /\
  calls (step k s) = calls s /\
  Queue.items (queue (step k s)) = Queue.items (queue s).
Proof.
  intros H. unfold step.
  destruct (tasks s !! k) as [tk|] eqn:Hk; [|done].
  destruct (is_done (pc tk)) eqn:Hd; [done|].
  destruct (H k tk Hk) as [Hx|Hx]; [congruence|]. rewrite Hx.
  split; [|done]. intros j tk' Hj. simpl in Hj. task_lookup; [by left|by apply (H j)].
Qed.

Lemma halted_env (e : EnvEvent) (s : MusicPlayer) :
  all_halted s ->
  all_halted (env e s) /\ now_playing (env e s) = now_playing s /\
  calls (env e s) = calls s /\
  Queue.items (queue (env e s)) = Queue.items (queue s).
Proof.
  intros H. split; [|split; [|split]].
  - intros j tk Hj. destruct e; simpl in *; unfold set_flags in *;
      repeat case_match; simplify_eq/=; try (by apply (H j)).
    rewrite list_lookup_fmap in Hj.
    destruct (tasks s !! j) as [tk0|] eqn:Hk; simplify_eq/=.
    rewrite tick_task_done, tick_task_cancel. by apply (H j).
  - destruct e; simpl; unfold set_flags; by repeat case_match.
  - apply env_calls.
  - apply env_items.
Qed.

Lemma halted_run (acts : list Action) (s : MusicPlayer) :
  all_halted s -> forallb is_scheduling acts = true ->
  all_halted (run acts s) /\ now_playing (run acts s) = now_playing s /\
  calls (run acts s) = calls s /\
  Queue.items (queue (run acts s)) = Queue.items (queue s).
Proof.
  revert s. induction acts as [|a acts IH]; intros s H Hs; [done|].
  simpl in Hs. apply andb_true_iff in Hs as [Ha Hs].
  change (run (a :: acts) s) with (run acts (act a s)).
  assert (all_halted (act a s) /\ now_playing (act a s) = now_playing s /\
          calls (act a s) = calls s /\
          Queue.items (queue (act a s)) = Queue.items (queue s)) as (H1 & H2 & H3 & H4).
  { destruct a; simpl in *; try done; [by apply halted_step|by apply halted_env]. }
  destruct (IH (act a s) H1 Hs) as (H5 & H6 & H7 & H8).
  split; [done|]. split; [congruence|]. split; congruence.
Qed.

Lemma scheduling_is_scheduling (l : list (nat + EnvEvent)) :
  forallb is_scheduling (scheduling l) = true.
Proof. induction l as [|[k|e] l IH]; simpl; done. Qed.

Lemma all_halted_stop_playing_A : all_halted (stop playing_A).
Proof.
  intros k tk Hk. destruct k as [|k]; simpl in Hk; simplify_eq/=; by right.
Qed.

(** C2: [stop] empties the queue and is idempotent, but it does not
    clear [now_playing].  With track A playing and B, C queued, [stop]
    halts the audio and drains the queue, yet [now_playing] is still A
    when [stop] returns, and it stays A however the cancelled loop task
    and the environment are scheduled afterwards: the cancellation
    leaves [_player_loop] before its [self.now_playing = None]. *)
Theorem C2_stop_keeps_now_playing :
  now_playing playing_A = Some track_A /\
  Queue.items (queue playing_A) = [track_B; track_C] /\
  voice_playing playing_A = true /\
  Queue.items (queue (stop playing_A)) = [] /\
  voice_playing (stop playing_A) = false /\
  stop (stop playing_A) = stop playing_A /\
  now_playing (stop playing_A) = Some track_A /\
  tasks (run [Stop; Step 0] playing_A) = [mkTask (Done Cancelled) true] /\
  (forall later : list (nat + EnvEvent),
     now_playing (run (scheduling later) (stop playing_A)) = Some track_A).
Proof.
  repeat (split; [vm_compute; reflexivity|]).
  intros later.
  destruct (halted_run (scheduling later) (stop playing_A) all_halted_stop_playing_A
              (scheduling_is_scheduling later)) as (_ & -> & _).
  reflexivity.
Qed.

(** What [step] does at each place a task can be parked. *)
Lemma step_waiting_timeout (k idle : nat) (s : MusicPlayer) :
  tasks s !! k = Some {| pc := WaitingGet idle; must_cancel := false |} ->
  Queue.items (queue s) = [] -> IDLE_TIMEOUT <= idle ->
  step k s = on_timeout k s.
Proof.
  intros Hk Hq Hi. unfold step, Queue.get_nowait. rewrite Hk, Hq. simpl.
  by apply Nat.leb_le in Hi as ->.
Qed.

Lemma step_waiting_blocked (k idle : nat) (s : MusicPlayer) :
  tasks s !! k = Some {| pc := WaitingGet idle; must_cancel := false |} ->
  Queue.items (queue s) = [] -> idle < IDLE_TIMEOUT ->
  step k s = s.
Proof.
  intros Hk Hq Hi. unfold step, Queue.get_nowait. rewrite Hk, Hq. simpl.
  by apply Nat.leb_gt in Hi as ->.
Qed.

Lemma step_waiting_track (k idle : nat) (track : Track) (rest : list Track) (s : MusicPlayer) :
  tasks s !! k = Some {| pc := WaitingGet idle; must_cancel := false |} ->
  Queue.items (queue s) = track :: rest ->
  step k s =
    on_track k track
      (with_queue {| Queue.items := rest;
                     Queue.unfinished_tasks := Queue.unfinished_tasks (queue s) |} s).
Proof. intros Hk Hq. unfold step, Queue.get_nowait. by rewrite Hk, Hq. Qed.

Lemma step_disconnecting (k vc : nat) (s : MusicPlayer) :
  tasks s !! k = Some {| pc := Disconnecting vc; must_cancel := false |} ->
  step k s = after_disconnect k vc s.
Proof. intros Hk. unfold step. by rewrite Hk. Qed.


Lemma step_done (k : nat) (tk : Task) (s : MusicPlayer) :
  tasks s !! k = Some tk -> is_done (pc tk) = true -> step k s = s.
Proof. intros Hk Hd. unfold step. by rewrite Hk, Hd. Qed.

Lemma lookup_set_pc_eq (k : nat) (p : PC) (tk : Task) (s : MusicPlayer) :
  tasks s !! k = Some tk ->
  tasks (set_pc k p s) !! k = Some {| pc := p; must_cancel := must_cancel tk |}.
Proof. intros Hk. unfold set_pc. simpl. by rewrite list_lookup_alter_eq, Hk. Qed.

Lemma length_set_pc (k : nat) (p : PC) (s : MusicPlayer) :
  length (tasks (set_pc k p s)) = length (tasks s).
Proof. unfold set_pc. simpl. apply length_alter. Qed.

(** ** [now_playing] *)










(** ** The idle timeout *)

(** While only the environment acts, a waiting loop keeps waiting: its
    idle time grows with the clock, the queue keeps its tracks, nothing
    is asked of the voice collaborator and no audio starts. *)
Lemma waiting_env (e : EnvEvent) (s : MusicPlayer) (k i : nat) :
  tasks s !! k = Some {| pc := WaitingGet i; must_cancel := false |} ->
  voice_playing s = false ->
  tasks (env e s) !! k
    = Some {| pc := WaitingGet (i + elapsed [Env e]); must_cancel := false |} /\
  voice_playing (env e s) = false /\
  _player_task (env e s) = _player_task s /\
  Queue.items (queue (env e s)) = Queue.items (queue s) /\
  calls (env e s) = calls s /\
  length (tasks (env e s)) = length (tasks s).
Proof.
  intros Hk Hv. unfold voice_playing in *.
  destruct e; simpl; unfold set_flags, Queue.task_done;
    repeat case_match; simplify_eq/=; rewrite ?Nat.add_0_r; try done.
  all: try (rewrite list_lookup_fmap, Hk, length_fmap; simpl;
            by replace (i + 1) with (S i) by lia).
Qed.

Lemma waiting_env_run (acts : list Action) (s : MusicPlayer) (k i : nat) :
  forallb is_env acts = true ->
  tasks s !! k = Some {| pc := WaitingGet i; must_cancel := false |} ->
  voice_playing s = false ->
  tasks (run acts s) !! k
    = Some {| pc := WaitingGet (i + elapsed acts); must_cancel := false |} /\
  voice_playing (run acts s) = false /\
  _player_task (run acts s) = _player_task s /\
  Queue.items (queue (run acts s)) = Queue.items (queue s) /\
  calls (run acts s) = calls s /\
  length (tasks (run acts s)) = length (tasks s).
Proof.
  revert s i. induction acts as [|a acts IH]; intros s i He Hk Hv.
  - simpl. by rewrite Nat.add_0_r.
  - simpl in He. apply andb_true_iff in He as [Ha He].
    destruct a as [| | | |e]; try done.
    change (run (Env e :: acts) s) with (run acts (env e s)).
    destruct (waiting_env e s k i Hk Hv) as (H1 & H2 & H3 & H4 & H5 & H6).
    destruct (IH (env e s) _ He H1 H2) as (G1 & G2 & G3 & G4 & G5 & G6).
    rewrite G1, G2, G3, G4, G5, G6, H3, H4, H5, H6.
    repeat split; try done. do 3 f_equal.
    destruct e; simpl; lia.
Qed.

Lemma exec_all_on_player (r : nat) (acts : list Action) (b : Bot) :
  exec_all (map (OnPlayer r) acts) b =
  {| players := players b; heap := alter (run acts) r (heap b) |}.
Proof.
  revert b. induction acts as [|a acts IH]; intros [ps h].
  - simpl. f_equal. symmetry. by apply list_alter_id.
  - change (exec_all (map (OnPlayer r) (a :: acts)) {| players := ps; heap := h |})
      with (exec_all (map (OnPlayer r) acts)
              {| players := ps; heap := alter (act a) r h |}).
    rewrite IH. simpl. f_equal. by rewrite list_alter_alter_eq.
Qed.

(** The loop of one player leaves on the timeout: the first step asks
    the voice client, when there is one, to disconnect; the second
    returns from [vc.disconnect] and breaks out of the loop. *)
Lemma timeout_exit (s : MusicPlayer) (k i : nat) :
  tasks s !! k = Some {| pc := WaitingGet i; must_cancel := false |} ->
  Queue.items (queue s) = [] ->
  voice_playing s = false ->
  IDLE_TIMEOUT <= i ->
  let s' := run [Step k; Step k] s in
  tasks s' !! k = Some {| pc := Done Returned_idle; must_cancel := false |} /\
  _player_task s' = _player_task s /\
  length (tasks s') = length (tasks s) /\
  calls s' = calls s ++ idle_disconnect s /\
  voice_client (guild s') = None /\
  queue s' = queue s.
Proof.
  intros Hk Hq Hvp Hn s'. subst s'.
  change (run [Step k; Step k] s) with (step k (step k s)).
  rewrite (step_waiting_timeout k i s) by done.
  unfold voice_playing, idle_disconnect in *. unfold on_timeout.
  destruct (voice_client (guild s)) as [v|] eqn:Hv.
  - rewrite Hvp. simpl negb. cbv iota.
    set (s2 := log (CallDisconnect (vc_id v)) s).
    assert (tasks s2 !! k = Some {| pc := WaitingGet i; must_cancel := false |})
      as Hk2 by exact Hk.
    pose proof (lookup_set_pc_eq k (Disconnecting (vc_id v)) _ s2 Hk2) as Hk3.
    rewrite (step_disconnecting k (vc_id v) _ Hk3).
    unfold after_disconnect.
    change (voice_client (guild (set_pc k (Disconnecting (vc_id v)) s2)))
      with (voice_client (guild s)).
    rewrite Hv, Nat.eqb_refl.
    set (s3 := with_voice None _).
    assert (tasks s3 !! k = Some {| pc := Disconnecting (vc_id v); must_cancel := false |})
      as Hk4 by exact Hk3.
    rewrite (lookup_set_pc_eq k _ _ s3 Hk4).
    rewrite length_set_pc.
    change (length (tasks s3)) with (length (tasks (set_pc k (Disconnecting (vc_id v)) s2))).
    rewrite length_set_pc. done.
  - pose proof (lookup_set_pc_eq k (Done Returned_idle) _ s Hk) as Hk3.
    rewrite (step_done k _ _ Hk3 eq_refl).
    rewrite Hk3, length_set_pc, app_nil_r. simpl. done.
Qed.

(** C5: take a player whose loop waits for a track on an empty queue
    while nothing plays, and let only the environment act until the
    loop has waited for the idle timeout or longer.  The loop then
    leaves: its task ends through the [break] of the timeout, and the
    voice collaborator receives exactly one disconnect call when the
    guild has a voice client at that moment (none otherwise).  The
    guild keeps its entry in the registry, and the next [enqueue]
    starts a fresh loop task. *)
Theorem C5_idle_timeout_disconnects_once
    (b : Bot) (gid : Z) (r k i : nat) (s : MusicPlayer) (wait : list Action) :
  players b !! gid = Some r ->
  heap b !! r = Some s ->
  _player_task s = Some k ->
  tasks s !! k = Some {| pc := WaitingGet i; must_cancel := false |} ->
  Queue.items (queue s) = [] ->
  voice_playing s = false ->
  forallb is_env wait = true ->
  IDLE_TIMEOUT <= i + elapsed wait ->
  let b' := exec_all (map (OnPlayer r) (wait ++ [Step k; Step k])) b in
  exists s',
    heap b' !! r = Some s' /\
    players b' !! gid = Some r /\
    tasks s' !! k = Some {| pc := Done Returned_idle; must_cancel := false |} /\
    no_active_task s' = true /\
    calls s' = calls s ++ idle_disconnect (run wait s) /\
    length (idle_disconnect (run wait s))
      = match voice_client (guild (run wait s)) with Some _ => 1 | None => 0 end /\
    voice_client (guild s') = None /\
    forall track,
      _player_task (enqueue track s') = Some (length (tasks s')) /\
      tasks (enqueue track s') !! length (tasks s')
        = Some {| pc := Created; must_cancel := false |} /\
      no_active_task (enqueue track s') = false /\
      Queue.items (queue (enqueue track s')) = [track].
Proof.
  intros Hp Hh Hpt Hk Hq Hvp He Hn b'. subst b'.
  rewrite exec_all_on_player. simpl.
  destruct (waiting_env_run wait s k i He Hk Hvp) as (W1 & W2 & W3 & W4 & W5 & W6).
  rewrite Hq in W4.
  destruct (timeout_exit (run wait s) k _ W1 W4 W2 Hn) as (H1 & H2 & H3 & H4 & H5 & H6).
  rewrite <- run_app in H1, H2, H3, H4, H5, H6.
  set (s' := run (wait ++ [Step k; Step k]) s) in *.
  exists s'.
  assert (no_active_task s' = true) as Hna.
  { unfold no_active_task. by rewrite H2, W3, Hpt, H1. }
  repeat split; try done.
  - by rewrite list_lookup_alter_eq, Hh.
  - by rewrite H4, W5.
  - unfold idle_disconnect. by destruct (voice_client (guild (run wait s))).
  - unfold enqueue, start.
    change (no_active_task (with_queue ?q s')) with (no_active_task s').
    by rewrite Hna.
  - unfold enqueue, start.
    change (no_active_task (with_queue ?q s')) with (no_active_task s').
    rewrite Hna. simpl. by rewrite lookup_app_r, Nat.sub_diag.
  - unfold enqueue, start.
    change (no_active_task (with_queue ?q s')) with (no_active_task s').
    rewrite Hna. unfold no_active_task. simpl.
    by rewrite lookup_app_r, Nat.sub_diag.
  - unfold enqueue. rewrite start_queue. simpl. rewrite H6, W4. done.
Qed.

Lemma C5_idle_timeout_disconnects_once_witness :
  let s := run [Step 0] (start (MusicPlayer_init guild_connected)) in
  let b := {| players := {[ 1%Z := 0 ]}; heap := [s] |} in
  let wait := replicate 300 (Env Tick) in
  let b' := exec_all (map (OnPlayer 0) (wait ++ [Step 0; Step 0])) b in
  exists s',
    heap b' !! 0 = Some s' /\
    players b' !! 1%Z = Some 0 /\
    tasks s' !! 0 = Some {| pc := Done Returned_idle; must_cancel := false |} /\
    no_active_task s' = true /\
    calls s' = calls s ++ idle_disconnect (run wait s) /\
    length (idle_disconnect (run wait s))
      = match voice_client (guild (run wait s)) with Some _ => 1 | None => 0 end /\
    voice_client (guild s') = None /\
    forall track,
      _player_task (enqueue track s') = Some (length (tasks s')) /\
      tasks (enqueue track s') !! length (tasks s')
        = Some {| pc := Created; must_cancel := false |} /\
      no_active_task (enqueue track s') = false /\
      Queue.items (queue (enqueue track s')) = [track].
Proof.
  intros s b wait.
  apply (C5_idle_timeout_disconnects_once b 1%Z 0 0 0 s wait);
    reflexivity.
Defined.

(** ** A track received without a live voice connection *)

Lemma discard_waiting (k idle : nat) (s : MusicPlayer) :
  tasks s !! k = Some {| pc := WaitingGet idle; must_cancel := false |} ->
  0 < Queue.unfinished_tasks (queue s) ->
  _stopped s = false ->
  calls (discard k s) = calls s /\
  now_playing (discard k s) = None /\
  tasks (discard k s) !! k = Some {| pc := WaitingGet 0; must_cancel := false |} /\
  Queue.items (queue (discard k s)) = Queue.items (queue s) /\
  guild (discard k s) = guild s.
Proof.
  intros Hk Hu Hs. unfold discard, Queue.task_done.
  destruct (Queue.unfinished_tasks (queue s)) as [|u]; [lia|].
  unfold loop_head. simpl. rewrite Hs. simpl.
  by rewrite list_lookup_alter_eq, Hk.
Qed.

(** C6: when the loop dequeues a track and the guild has no live voice
    connection, nothing is handed to the voice collaborator, the task
    does not end in an exception, [now_playing] is empty afterwards,
    and the loop is back at its wait for the next track, with the
    dropped track gone from the queue. *)
Theorem C6_no_voice_track_discarded
    (g : Guild) (acts : list Action) (k idle : nat) (track : Track) (rest : list Track) :
  quiet g = true ->
  tasks (run acts (MusicPlayer_init g)) !! k
    = Some {| pc := WaitingGet idle; must_cancel := false |} ->
  Queue.items (queue (run acts (MusicPlayer_init g))) = track :: rest ->
  voice_live (run acts (MusicPlayer_init g)) = false ->
  let s := run acts (MusicPlayer_init g) in
  calls (step k s) = calls s /\
  now_playing (step k s) = None /\
  tasks (step k s) !! k = Some {| pc := WaitingGet 0; must_cancel := false |} /\
  Queue.items (queue (step k s)) = rest /\
  guild (step k s) = guild s.
Proof.
  intros Hq Hk Hi Hv s. fold s in Hk, Hi, Hv.
  assert (Inv s) as HI by (apply Inv_reachable, Hq).
  rewrite (step_waiting_track k idle track rest s Hk Hi).
  set (s0 := with_now_playing (Some track)
               (with_queue {| Queue.items := rest;
                              Queue.unfinished_tasks := Queue.unfinished_tasks (queue s) |} s)).
  assert (on_track k track
            (with_queue {| Queue.items := rest;
                           Queue.unfinished_tasks := Queue.unfinished_tasks (queue s) |} s)
          = discard k s0) as ->.
  { unfold on_track. fold s0. unfold voice_live in Hv.
    change (voice_client (guild s0)) with (voice_client (guild s)).
    destruct (voice_client (guild s)) as [v|]; [|done]. by rewrite Hv. }
  assert (0 < Queue.unfinished_tasks (queue s0)) as Hu.
  { subst s0. simpl. rewrite (inv_unfinished s HI), Hi. simpl. lia. }
  assert (_stopped s0 = false) as Hs.
  { subst s0. simpl. by apply (inv_stopped s HI k _ Hk). }
  destruct (discard_waiting k idle s0 Hk Hu Hs) as (H1 & H2 & H3 & H4 & H5).
  done.
Qed.

Lemma C6_no_voice_track_discarded_witness :
  let s := run [Enqueue track_A; Step 0] (MusicPlayer_init guild_1) in
  calls (step 0 s) = calls s /\
  now_playing (step 0 s) = None /\
  tasks (step 0 s) !! 0 = Some {| pc := WaitingGet 0; must_cancel := false |} /\
  Queue.items (queue (step 0 s)) = [] /\
  guild (step 0 s) = guild s.
Proof.
  apply (C6_no_voice_track_discarded guild_1 [Enqueue track_A; Step 0] 0 0 track_A []);
    reflexivity.
Defined.

(** ** The registry *)

Lemma get_player_registered (g : Guild) (b : Bot) :
  players (snd (get_player g b)) !! guild_id g = Some (fst (get_player g b)).
Proof.
  unfold get_player. destruct (players b !! guild_id g) as [r|] eqn:Hr; simpl; [done|].
  apply lookup_insert_eq.
Qed.

(** No command removes or redirects an entry of the registry. *)
Lemma exec_keeps_entry (c : Command) (b : Bot) (gid : Z) (r : nat) :
  players b !! gid = Some r -> players (exec c b) !! gid = Some r.
Proof.
  intros Hr. destruct c as [g|r' a]; simpl; [|done].
  unfold get_player. destruct (players b !! guild_id g) as [r0|] eqn:Hg; simpl; [done|].
  rewrite lookup_insert_ne; [done|]. intros Heq. rewrite Heq in Hg. congruence.
Qed.

Lemma exec_all_keeps_entry (cs : list Command) (b : Bot) (gid : Z) (r : nat) :
  players b !! gid = Some r -> players (exec_all cs b) !! gid = Some r.
Proof.
  revert b. induction cs as [|c cs IH]; intros b Hr; [done|].
  simpl. apply IH, exec_keeps_entry, Hr.
Qed.

(** C7: [get_player] called twice for one guild id returns the same
    player object and the second call changes nothing; a call for a
    guild that has no entry creates a fresh empty player, stores it and
    registers it; and no command ever removes or redirects an entry. *)
Theorem C7_registry_one_player_per_guild :
  (forall (b : Bot) (g g' : Guild),
      guild_id g = guild_id g' ->
      let r1 := fst (get_player g b) in
      let b1 := snd (get_player g b) in
      fst (get_player g' b1) = r1 /\ snd (get_player g' b1) = b1) /\
  (forall (b : Bot) (g : Guild),
      players b !! guild_id g = None ->
      let r := fst (get_player g b) in
      let b1 := snd (get_player g b) in
      r = length (heap b) /\
      heap b1 !! r = Some (MusicPlayer_init g) /\
      players b1 !! guild_id g = Some r /\
      (forall r0 p, heap b !! r0 = Some p -> heap b1 !! r0 = Some p)) /\
  (forall (b : Bot) (g : Guild) (r : nat),
      players b !! guild_id g = Some r ->
      get_player g b = (r, b)) /\
  (forall (cs : list Command) (b : Bot) (gid : Z) (r : nat),
      players b !! gid = Some r ->
      players (exec_all cs b) !! gid = Some r).
Proof.
  split; [|split; [|split]].
  - intros b g g' Hid r1 b1.
    pose proof (get_player_registered g b) as Hr. fold r1 b1 in Hr.
    clearbody r1 b1. rewrite Hid in Hr. unfold get_player. by rewrite Hr.
  - intros b g Hn r b1. subst r b1. unfold get_player. rewrite Hn. simpl.
    repeat split.
    + by rewrite lookup_app_r, Nat.sub_diag.
    + apply lookup_insert_eq.
    + intros r0 p Hp. apply lookup_app_Some. by left.
  - intros b g r Hr. unfold get_player. by rewrite Hr.
  - apply exec_all_keeps_entry.
Qed.

Lemma C7_registry_one_player_per_guild_witness :
  let b1 := snd (get_player guild_1 Bot_init) in
  (fst (get_player guild_connected b1) = fst (get_player guild_1 Bot_init) /\
   snd (get_player guild_connected b1) = b1) /\
  (fst (get_player guild_1 Bot_init) = 0 /\
   heap b1 !! 0 = Some (MusicPlayer_init guild_1)) /\
  players (exec_all [OnPlayer 0 (Enqueue track_A); OnPlayer 0 Stop;
                     GetPlayer (mkGuild 2 None); OnPlayer 0 (Step 0)] b1) !! 1%Z = Some 0.
Proof.
  intros b1.
  destruct C7_registry_one_player_per_guild as (H1 & H2 & _ & H4).
  split; [|split].
  - apply (H1 Bot_init guild_1 guild_connected). reflexivity.
  - destruct (H2 Bot_init guild_1) as (Ha & Hb & _); [reflexivity|].
    split; [exact Ha|exact Hb].
  - apply (H4 _ b1 1%Z 0). reflexivity.
Defined.

(** ** How the loop ends, and a track that breaks *)





(** ** [stop] followed by [enqueue] *)

Lemma all_halted_enqueue_early : all_halted enqueue_early.
Proof.
  intros k tk Hk. destruct k as [|k]; simpl in Hk; simplify_eq/=; by left.
Qed.

(** C9: what [stop] followed by [enqueue] does depends on the schedule.
    When the cancelled loop task runs before the enqueue, [start] finds
    it done, starts a fresh loop, and track D is played.  When the
    enqueue runs first, [start] finds the task not done yet and starts
    nothing; the task is then cancelled, and D stays in the queue with
    no loop left: whatever the loop steps and environment events that
    follow, D is never played. *)
Theorem C9_stop_then_enqueue_depends_on_schedule :
  played (calls enqueue_late) = [track_A; track_D] /\
  now_playing enqueue_late = Some track_D /\
  active_loops enqueue_late = 1 /\
  played (calls enqueue_early) = [track_A] /\
  Queue.items (queue enqueue_early) = [track_D] /\
  active_loops enqueue_early = 0 /\
  _stopped enqueue_early = true /\
  (forall later : list (nat + EnvEvent),
     played (calls (run (scheduling later) enqueue_early)) = [track_A] /\
     Queue.items (queue (run (scheduling later) enqueue_early)) = [track_D]).
Proof.
  repeat (split; [vm_compute; reflexivity|]).
  intros later.
  destruct (halted_run (scheduling later) enqueue_early all_halted_enqueue_early
              (scheduling_is_scheduling later)) as (_ & _ & -> & ->).
  split; vm_compute; reflexivity.
Qed.

(** ** Disconnecting *)

Lemma disconnected_app (l1 l2 : list Call) :
  disconnected (l1 ++ l2) = disconnected l1 ++ disconnected l2.
Proof.
  induction l1 as [|c l1 IH]; simpl; [done|].
  destruct c; simpl; by rewrite IH.
Qed.

(** [stop] leaves the voice client in place, with the connection state
    it had, and asks for no disconnect. *)
Lemma stop_voice_frame (s : MusicPlayer) :
  (fun v => (vc_id v, connected v)) <$> voice_client (guild (stop s))
    = (fun v => (vc_id v, connected v)) <$> voice_client (guild s) /\
  voice_live (stop s) = voice_live s /\
  disconnected (calls (stop s)) = disconnected (calls s).
Proof.
  unfold stop, stop_body, voice_live. destruct (drain _ _) as [q ok].
  assert (forall s0 : MusicPlayer,
            (fun v => (vc_id v, connected v)) <$> voice_client (guild (halt_voice s0))
              = (fun v => (vc_id v, connected v)) <$> voice_client (guild s0) /\
            match voice_client (guild (halt_voice s0)) with
            | Some v => connected v | None => false end
              = match voice_client (guild s0) with
                | Some v => connected v | None => false end /\
            disconnected (calls (halt_voice s0)) = disconnected (calls s0)) as Hh.
  { intros s0. unfold halt_voice.
    destruct (voice_client (guild s0)) as [v|] eqn:Hv; [|by rewrite Hv].
    destruct (playing v); simpl; [|by rewrite Hv].
    rewrite disconnected_app. simpl. by rewrite app_nil_r. }
  destruct ok; simpl; [destruct (_player_task _); simpl|];
    exact (Hh (with_stopped true s)).
Qed.

(** Only the idle-timeout branch of the loop asks for a disconnect. *)
Lemma disconnect_only_on_timeout (a : Action) (s : MusicPlayer) :
  disconnected (calls (act a s)) <> disconnected (calls s) ->
  exists k idle,
    a = Step k /\
    tasks s !! k = Some {| pc := WaitingGet idle; must_cancel := false |} /\
    IDLE_TIMEOUT <= idle /\
    Queue.items (queue s) = [] /\
    calls (act a s) = calls s ++ idle_disconnect s.
Proof.
  intros H. destruct a as [t| | |k|e]; simpl in H.
  - unfold enqueue in H. rewrite start_calls in H. done.
  - rewrite start_calls in H. done.
  - destruct (stop_voice_frame s) as (_ & _ & Hd). done.
  - exists k. simpl. unfold idle_disconnect. crunch.
    all: rewrite ?disconnected_app in H; simpl in H; rewrite ?app_nil_r in H; try done.
    exists idle. repeat split. by apply Nat.leb_le.
  - rewrite env_calls in H. done.
Qed.

(** C10: [stop] never disconnects: after it the guild has the same
    voice client, connected or not as before, and the log of disconnect
    requests is unchanged.  Among all the actions on a player, only the
    step of the loop that takes the idle-timeout branch adds a
    disconnect request. *)
Theorem C10_stop_never_disconnects :
  (forall s : MusicPlayer,
      (fun v => (vc_id v, connected v)) <$> voice_client (guild (stop s))
        = (fun v => (vc_id v, connected v)) <$> voice_client (guild s) /\
      voice_live (stop s) = voice_live s /\
      disconnected (calls (stop s)) = disconnected (calls s)) /\
  (forall (a : Action) (s : MusicPlayer),
      disconnected (calls (act a s)) <> disconnected (calls s) ->
      exists k idle,
        a = Step k /\
        tasks s !! k = Some {| pc := WaitingGet idle; must_cancel := false |} /\
        IDLE_TIMEOUT <= idle /\
        Queue.items (queue s) = [] /\
        calls (act a s) = calls s ++ idle_disconnect s).
Proof.
  split; [apply stop_voice_frame|apply disconnect_only_on_timeout].
Qed.

Lemma C10_stop_never_disconnects_witness :
  let s := run (Start :: Step 0 :: replicate 300 (Env Tick))
             (MusicPlayer_init guild_connected) in
  exists k idle,
    Step 0 = Step k /\
    tasks s !! k = Some {| pc := WaitingGet idle; must_cancel := false |} /\
    IDLE_TIMEOUT <= idle /\
    Queue.items (queue s) = [] /\
    calls (act (Step 0) s) = calls s ++ idle_disconnect s.
Proof.
  intros s.
  destruct C10_stop_never_disconnects as [_ H].
  apply (H (Step 0) s). vm_compute. intros E. discriminate E.
Defined.

(** * Further properties of the player *)

(** ** [stop] is effective *)

Lemma stop_flags (s : MusicPlayer) :
  Inv s -> _stopped (stop s) = true /\ voice_playing (stop s) = false.
Proof.
  intros HI. rewrite (stop_ok s HI). unfold stopped_state, halt_voice, voice_playing, cancel.
  simpl. repeat case_match; simplify_eq/=; done.
Qed.


(** X1: in every state the player reaches, [stop] returns normally
    (its drain loop never hits the [ValueError] of [task_done]), leaves
    the queue empty, the stop flag set and the audio halted, and a
    second [stop] changes nothing. *)
Theorem stop_drains_and_is_idempotent (g : Guild) (acts : list Action) :
  quiet g = true ->
  let s := run acts (MusicPlayer_init g) in
  stop_body s = (stop s, true) /\
  Queue.items (queue (stop s)) = [] /\
  _stopped (stop s) = true /\
  voice_playing (stop s) = false /\
  stop (stop s) = stop s.
Proof.
  intros Hq s. assert (Inv s) as HI by apply Inv_reachable, Hq.
  destruct (stop_flags s HI) as [H1 H2].
  repeat split; try done.
  - unfold stop. rewrite stop_body_ok; [done|]. rewrite (inv_unfinished s HI). lia.
  - by apply stop_queue_empty.
  - by apply stop_idempotent.
Qed.

Lemma stop_drains_and_is_idempotent_witness :
  stop_body playing_A = (stop playing_A, true) /\
  Queue.items (queue (stop playing_A)) = [] /\
  _stopped (stop playing_A) = true /\
  voice_playing (stop playing_A) = false /\
  stop (stop playing_A) = stop playing_A.
Proof.
  apply (stop_drains_and_is_idempotent guild_connected
           [Enqueue track_A; Enqueue track_B; Enqueue track_C; Step 0; Step 0]).
  reflexivity.
Defined.



(** ** [enqueue] keeps exactly one loop running *)

Lemma enqueue_starts_loop (track : Track) (s : MusicPlayer) :
  no_active_task (enqueue track s) = false.
Proof.
  unfold enqueue, start.
  change (no_active_task (with_queue (Queue.put_nowait track (queue s)) s))
    with (no_active_task s).
  destruct (no_active_task s) eqn:Hn; [|done].
  unfold no_active_task. simpl. by rewrite lookup_app_r, Nat.sub_diag.
Qed.

Lemma active_task_counts (s : MusicPlayer) :
  no_active_task s = false -> 1 <= active_loops s.
Proof.
  unfold no_active_task, active_loops. intros Hn.
  destruct (_player_task s) as [k|]; [|done].
  destruct (tasks s !! k) as [tk|] eqn:Hk; [|done].
  assert (In tk (List.filter (fun tk => negb (is_done (pc tk))) (tasks s))) as Hin.
  { apply filter_In. split; [|by rewrite Hn].
    apply list_elem_of_In, list_elem_of_lookup. by exists k. }
  destruct (List.filter _ (tasks s)); [done|simpl; lia].
Qed.

(** X3: in every state the player reaches, [enqueue] puts the track at
    the tail of the queue, asks nothing of the voice collaborator, does
    not touch [now_playing], and leaves exactly one unfinished loop
    task. *)
Theorem enqueue_appends_and_keeps_one_loop (g : Guild) (acts : list Action) (track : Track) :
  let s := run acts (MusicPlayer_init g) in
  Queue.items (queue (enqueue track s)) = Queue.items (queue s) ++ [track] /\
  active_loops (enqueue track s) = 1 /\
  calls (enqueue track s) = calls s /\
  now_playing (enqueue track s) = now_playing s /\
  guild (enqueue track s) = guild s.
Proof.
  intros s. unfold enqueue at 1 3 4 5.
  rewrite start_queue, start_calls, start_now_playing.
  repeat split; try done.
  - apply Nat.le_antisymm.
    + apply single_loop_active, single_loop_start.
      exact (single_loop_run acts _ (single_loop_init g)).
    + apply active_task_counts, enqueue_starts_loop.
  - unfold start. by case_match.
Qed.

(** ** Before the idle timeout *)

(** X4: while the loop has waited for less than the idle timeout on an
    empty queue, scheduling it changes nothing: it keeps waiting and
    asks for no disconnect, whatever the environment did meanwhile. *)
Theorem no_disconnect_before_timeout (s : MusicPlayer) (k i : nat) (wait : list Action) :
  tasks s !! k = Some {| pc := WaitingGet i; must_cancel := false |} ->
  Queue.items (queue s) = [] ->
  voice_playing s = false ->
  forallb is_env wait = true ->
  i + elapsed wait < IDLE_TIMEOUT ->
  step k (run wait s) = run wait s /\
  calls (run wait s) = calls s.
Proof.
  intros Hk Hq Hv He Hlt.
  destruct (waiting_env_run wait s k i He Hk Hv) as (W1 & _ & _ & W4 & W5 & _).
  split; [|done].
  apply (step_waiting_blocked k (i + elapsed wait)); [done| |done].
  by rewrite W4.
Qed.

Lemma no_disconnect_before_timeout_witness :
  let s := run [Start; Step 0] (MusicPlayer_init guild_connected) in
  let wait := replicate 299 (Env Tick) ++ [Env VoiceDown; Env VoiceUp] in
  step 0 (run wait s) = run wait s /\ calls (run wait s) = calls s.
Proof.
  apply (no_disconnect_before_timeout _ 0 0); try reflexivity.
  vm_compute. lia.
Defined.

(** ** Without a voice connection the whole queue is dropped *)

Lemma no_voice_step (s : MusicPlayer) (k idle : nat) (track : Track) (rest : list Track) :
  Inv s ->
  tasks s !! k = Some {| pc := WaitingGet idle; must_cancel := false |} ->
  Queue.items (queue s) = track :: rest ->
  voice_live s = false ->
  calls (step k s) = calls s /\
  now_playing (step k s) = None /\
  tasks (step k s) !! k = Some {| pc := WaitingGet 0; must_cancel := false |} /\
  Queue.items (queue (step k s)) = rest /\
  guild (step k s) = guild s.
Proof.
  intros HI Hk Hi Hv.
  rewrite (step_waiting_track k idle track rest s Hk Hi).
  set (s0 := with_now_playing (Some track)
               (with_queue {| Queue.items := rest;
                              Queue.unfinished_tasks := Queue.unfinished_tasks (queue s) |} s)).
  assert (on_track k track
            (with_queue {| Queue.items := rest;
                           Queue.unfinished_tasks := Queue.unfinished_tasks (queue s) |} s)
          = discard k s0) as ->.
  { unfold on_track. fold s0. unfold voice_live in Hv.
    change (voice_client (guild s0)) with (voice_client (guild s)).
    destruct (voice_client (guild s)) as [v|]; [|done]. by rewrite Hv. }
  assert (0 < Queue.unfinished_tasks (queue s0)) as Hu.
  { subst s0. simpl. rewrite (inv_unfinished s HI), Hi. simpl. lia. }
  assert (_stopped s0 = false) as Hs.
  { subst s0. simpl. by apply (inv_stopped s HI k _ Hk). }
  destruct (discard_waiting k idle s0 Hk Hu Hs) as (H1 & H2 & H3 & H4 & H5).
  done.
Qed.

Lemma no_voice_drain (ts : list Track) (s : MusicPlayer) (k idle : nat) :
  Inv s ->
  tasks s !! k = Some {| pc := WaitingGet idle; must_cancel := false |} ->
  Queue.items (queue s) = ts ->
  voice_live s = false ->
  let s' := run (replicate (length ts) (Step k)) s in
  calls s' = calls s /\
  Queue.items (queue s') = [] /\
  guild s' = guild s /\
  (exists idle', tasks s' !! k = Some {| pc := WaitingGet idle'; must_cancel := false |}) /\
  (ts <> [] -> now_playing s' = None).
Proof.
  revert s idle. induction ts as [|t ts IH]; intros s idle HI Hk Hi Hv.
  - simpl. repeat split; try done. by exists idle.
  - change (run (replicate (length (t :: ts)) (Step k)) s)
      with (run (replicate (length ts) (Step k)) (step k s)).
    destruct (no_voice_step s k idle t ts HI Hk Hi Hv) as (H1 & H2 & H3 & H4 & H5).
    assert (voice_live (step k s) = false) as Hv'.
    { unfold voice_live. by rewrite H5. }
    destruct (IH (step k s) 0 (Inv_step k s HI) H3 H4 Hv') as (G1 & G2 & G3 & G4 & G5).
    repeat split; try congruence.
    intros _. destruct ts as [|t' ts]; [exact H2|]. by apply G5.
Qed.

(** X5: when the guild has no live voice connection, the loop drops
    every queued track, one per scheduling: after as many steps as
    there are tracks the queue is empty, nothing was handed to the
    voice collaborator, [now_playing] is empty and the loop waits. *)
Theorem queue_dropped_without_voice
    (g : Guild) (acts : list Action) (k idle : nat) (ts : list Track) :
  quiet g = true ->
  tasks (run acts (MusicPlayer_init g)) !! k
    = Some {| pc := WaitingGet idle; must_cancel := false |} ->
  Queue.items (queue (run acts (MusicPlayer_init g))) = ts ->
  voice_live (run acts (MusicPlayer_init g)) = false ->
  ts <> [] ->
  let s := run acts (MusicPlayer_init g) in
  let s' := run (replicate (length ts) (Step k)) s in
  calls s' = calls s /\
  Queue.items (queue s') = [] /\
  now_playing s' = None /\
  (exists idle', tasks s' !! k = Some {| pc := WaitingGet idle'; must_cancel := false |}).
Proof.
  intros Hq Hk Hi Hv Hne s s'.
  destruct (no_voice_drain ts s k idle (Inv_reachable g acts Hq) Hk Hi Hv)
    as (H1 & H2 & _ & H4 & H5).
  repeat split; try done. by apply H5.
Qed.

Lemma queue_dropped_without_voice_witness :
  let s := run [Enqueue track_A; Enqueue track_B; Enqueue track_C; Step 0]
             (MusicPlayer_init guild_1) in
  let s' := run (replicate 3 (Step 0)) s in
  calls s' = calls s /\
  Queue.items (queue s') = [] /\
  now_playing s' = None /\
  (exists idle', tasks s' !! 0 = Some {| pc := WaitingGet idle'; must_cancel := false |}).
Proof.
  apply (queue_dropped_without_voice guild_1
           [Enqueue track_A; Enqueue track_B; Enqueue track_C; Step 0] 0 0
           [track_A; track_B; track_C]); try reflexivity.
  intros H. discriminate H.
Defined.

(** ** A fresh loop *)






(** ** Skipping *)





(** [skip_cmd] with nothing playing replies "Nothing to skip." and
    leaves the player as it is; in no case does it touch the queue, the
    loop tasks, the stop flag or [now_playing]. *)
Lemma skip_touches_only_the_audio (s : MusicPlayer) :
  let s' := fst (skip_cmd s) in
  queue s' = queue s /\ tasks s' = tasks s /\ _stopped s' = _stopped s /\
  now_playing s' = now_playing s /\ _player_task s' = _player_task s /\
  voice_playing s' = false /\
  (voice_playing s = false -> skip_cmd s = (s, "Nothing to skip.")).
Proof.
  unfold skip_cmd, voice_playing.
  destruct (voice_client (guild s)) as [v|] eqn:Hv; simpl; [|by rewrite Hv].
  destruct (playing v) eqn:Hp; simpl; [done|]. by rewrite Hv.
Qed.

Lemma skip_touches_only_the_audio_witness :
  let s := MusicPlayer_init guild_connected in
  let s' := fst (skip_cmd s) in
  queue s' = queue s /\ tasks s' = tasks s /\ _stopped s' = _stopped s /\
  now_playing s' = now_playing s /\ _player_task s' = _player_task s /\
  voice_playing s' = false /\
  skip_cmd s = (s, "Nothing to skip.").
Proof.
  destruct (skip_touches_only_the_audio (MusicPlayer_init guild_connected))
    as (H1 & H2 & H3 & H4 & H5 & H6 & H7).
  do 6 (split; [assumption|]). apply H7. reflexivity.
Defined.

(** ** Leaving the voice channel *)




(** ** Listing the queue *)





(** ** The registry and the guilds *)

(** No action on a player changes the guild it belongs to. *)
Lemma act_guild_id (a : Action) (s : MusicPlayer) :
  guild_id (guild (act a s)) = guild_id (guild s).
Proof.
  destruct a as [t| | |k|e]; simpl.
  - unfold enqueue, start. by case_match.
  - unfold start. by case_match.
  - unfold stop, stop_body, halt_voice, cancel.
    destruct (drain _ _) as [q ok]. by repeat case_match.
  - open_step. unfold Queue.get_nowait, Queue.task_done.
    repeat case_match; simplify_eq/=; done.
  - destruct e; simpl; unfold set_flags, Queue.task_done; by repeat case_match.
Qed.

Lemma registry_ok_exec (c : Command) (b : Bot) : registry_ok b -> registry_ok (exec c b).
Proof.
  intros Hok gid r Hr. destruct c as [g|r' a]; simpl in *.
  - unfold get_player in *.
    destruct (players b !! guild_id g) as [r0|] eqn:Hg; simpl in *; [by apply Hok|].
    destruct (decide (guild_id g = gid)) as [<-|Hne].
    + rewrite lookup_insert_eq in Hr. simplify_eq.
      exists (MusicPlayer_init g). split; [|done].
      by rewrite lookup_app_r, Nat.sub_diag.
    + rewrite lookup_insert_ne in Hr by done.
      destruct (Hok gid r Hr) as (p & Hp & Hid). exists p. split; [|done].
      apply lookup_app_Some. by left.
  - destruct (Hok gid r Hr) as (p & Hp & Hid).
    destruct (decide (r' = r)) as [->|Hne].
    + exists (act a p). split; [by rewrite list_lookup_alter_eq, Hp|].
      by rewrite act_guild_id.
    + exists p. split; [|done]. by rewrite list_lookup_alter_ne.
Qed.

Lemma registry_ok_exec_all (cs : list Command) (b : Bot) :
  registry_ok b -> registry_ok (exec_all cs b).
Proof.
  revert b. induction cs as [|c cs IH]; intros b Hok; [done|].
  simpl. by apply IH, registry_ok_exec.
Qed.

(** X10: whatever commands the bot has executed, every guild id of the
    registry leads to a stored player that belongs to that guild, and
    two different guild ids never lead to the same player. *)
Theorem registry_separates_guilds (cs : list Command) :
  let b := exec_all cs Bot_init in
  registry_ok b /\
  (forall g1 g2 r, players b !! g1 = Some r -> players b !! g2 = Some r -> g1 = g2).
Proof.
  intros b.
  assert (registry_ok b) as Hok.
  { apply registry_ok_exec_all. intros gid r Hr. simpl in Hr.
    by rewrite lookup_empty in Hr. }
  split; [done|].
  intros g1 g2 r H1 H2.
  destruct (Hok g1 r H1) as (p1 & Hp1 & <-).
  destruct (Hok g2 r H2) as (p2 & Hp2 & <-).
  congruence.
Qed.

Lemma registry_separates_guilds_witness :
  let b := exec_all [GetPlayer guild_1; OnPlayer 0 (Enqueue track_A);
                     GetPlayer (mkGuild 2 None); OnPlayer 1 Stop] Bot_init in
  exists p, heap b !! 1 = Some p /\ guild_id (guild p) = 2%Z.
Proof.
  intros b.
  destruct (registry_separates_guilds
              [GetPlayer guild_1; OnPlayer 0 (Enqueue track_A);
               GetPlayer (mkGuild 2 None); OnPlayer 1 Stop]) as [Hok _].
  apply (Hok 2%Z 1). vm_compute. reflexivity.
Defined.

Lemma players_ok_exec (c : Command) (b : Bot) :
  quiet_command c = true -> players_ok b -> players_ok (exec c b).
Proof.
  intros Hc Hok r p Hp. destruct c as [g|r' a]; simpl in *.
  - unfold get_player in Hp.
    destruct (players b !! guild_id g); simpl in Hp; [by apply (Hok r)|].
    apply lookup_app_Some in Hp as [Hp|[_ Hp]]; [by apply (Hok r)|].
    apply list_lookup_singleton_Some in Hp as [_ <-]. by apply Inv_init.
  - destruct (decide (r' = r)) as [->|Hne].
    + rewrite list_lookup_alter_eq in Hp.
      destruct (heap b !! r) as [p0|] eqn:Hp0; [|done].
      simpl in Hp. injection Hp as <-. apply Inv_act. by apply (Hok r).
    + rewrite list_lookup_alter_ne in Hp by done. by apply (Hok r).
Qed.

Lemma players_ok_exec_all (cs : list Command) (b : Bot) :
  forallb quiet_command cs = true -> players_ok b -> players_ok (exec_all cs b).
Proof.
  revert b. induction cs as [|c cs IH]; intros b Hc Hok; [done|].
  simpl in Hc. apply andb_true_iff in Hc as [Hc Hcs].
  simpl. by apply IH, players_ok_exec.
Qed.

(** X11: [stop_cmd] for a guild leaves that guild registered, with a
    player whose queue is empty and whose stop flag is set; every other
    stored player is exactly as before, and no registry entry changes.
    A guild without a player gets a fresh one, which is then stopped. *)
Theorem stop_cmd_clears_only_its_guild (cs : list Command) (g : Guild) :
  forallb quiet_command cs = true ->
  quiet g = true ->
  let b := exec_all cs Bot_init in
  let b' := fst (stop_cmd g b) in
  exists r p,
    players b' !! guild_id g = Some r /\
    heap b' !! r = Some p /\
    guild_id (guild p) = guild_id g /\
    Queue.items (queue p) = [] /\
    _stopped p = true /\
    (forall r', r' <> r -> heap b' !! r' = heap b !! r') /\
    (forall gid r', players b !! gid = Some r' -> players b' !! gid = Some r') /\
    (players b !! guild_id g = None -> r = length (heap b) /\ p = stop (MusicPlayer_init g)).
Proof.
  intros Hcs Hq b b'.
  assert (players_ok b) as Hok.
  { apply players_ok_exec_all; [done|]. intros r p Hp. simpl in Hp. done. }
  assert (registry_ok b) as Hreg.
  { apply registry_ok_exec_all. intros gid r Hr. simpl in Hr.
    by rewrite lookup_empty in Hr. }
  subst b'. unfold stop_cmd, get_player.
  destruct (players b !! guild_id g) as [r|] eqn:Hg; simpl.
  - destruct (Hreg _ r Hg) as (p & Hp & Hid).
    exists r, (stop p).
    pose proof (Hok r p Hp) as HI.
    destruct (stop_flags p HI) as [Hs _].
    split; [done|].
    split; [by rewrite list_lookup_alter_eq, Hp|].
    split; [rewrite <- Hid; apply (act_guild_id Stop p)|].
    split; [by apply stop_queue_empty|].
    split; [done|].
    split; [intros r' Hne; by rewrite list_lookup_alter_ne|].
    split; [done|]. intros Hn. congruence.
  - exists (length (heap b)), (stop (MusicPlayer_init g)).
    pose proof (Inv_init g Hq) as HI.
    destruct (stop_flags _ HI) as [Hs _].
    split; [apply lookup_insert_eq|].
    split; [by rewrite list_lookup_alter_eq, lookup_app_r, Nat.sub_diag|].
    split; [apply (act_guild_id Stop (MusicPlayer_init g))|].
    split; [by apply stop_queue_empty|].
    split; [done|].
    split.
    { intros r' Hne. rewrite list_lookup_alter_ne by done.
      destruct (decide (r' < length (heap b))) as [Hlt|Hge].
      - by rewrite lookup_app_l.
      - rewrite lookup_app_r by lia. rewrite (lookup_ge_None_2 (heap b)) by lia.
        apply lookup_ge_None_2. simpl. lia. }
    split; [|done].
    intros gid r' Hr. rewrite lookup_insert_ne; [done|]. intros Heq.
    rewrite Heq in Hg. congruence.
Qed.

Lemma stop_cmd_clears_only_its_guild_witness :
  let cs := [GetPlayer guild_1; OnPlayer 0 (Enqueue track_A);
             GetPlayer (mkGuild 2 None); OnPlayer 1 (Enqueue track_B)] in
  let b := exec_all cs Bot_init in
  let b' := fst (stop_cmd guild_1 b) in
  exists r p,
    players b' !! guild_id guild_1 = Some r /\
    heap b' !! r = Some p /\
    guild_id (guild p) = guild_id guild_1 /\
    Queue.items (queue p) = [] /\
    _stopped p = true /\
    (forall r', r' <> r -> heap b' !! r' = heap b !! r') /\
    (forall gid r', players b !! gid = Some r' -> players b' !! gid = Some r') /\
    (players b !! guild_id guild_1 = None ->
     r = length (heap b) /\ p = stop (MusicPlayer_init guild_1)).
Proof.
  apply (stop_cmd_clears_only_its_guild
           [GetPlayer guild_1; OnPlayer 0 (Enqueue track_A);
            GetPlayer (mkGuild 2 None); OnPlayer 1 (Enqueue track_B)] guild_1);
    reflexivity.
Defined.

(** ** [Track.create] *)








